(** * Erlang-C staffing with working vacations: a shallow embedding of [main.py]

    The program computes with Python numbers (ints and binary floats).  This
    development reads every number as an exact real: [+], [-], [*], [/],
    [**], [round], [math.ceil] and [math.factorial] are the mathematical
    operations, and the exceptions Python raises for them
    ([ZeroDivisionError], [ValueError]) are kept.  Rounding error, overflow
    and underflow of binary floating point are outside the model.

    Layout: Python's primitives ([Py]), the class [ErlangQueue], the search
    [forward], the module-level script ([Script]), then the theorems. *)

From Stdlib Require Import QArith Qround.
From Stdlib Require Import Reals Lra Lia ZArith List Psatz.
Import ListNotations.

Open Scope R_scope.

(** ** Python primitives *)

Module Py.

(** The exceptions the arithmetic of the program can raise.  [ComplexValue]
    is not a Python exception: [a ** b] with [a < 0] and a fractional [b] is
    a complex number in Python 3, which a real-valued model cannot hold;
    evaluation stops there. *)
Inductive exn : Set :=
  | ZeroDivisionError
  | ValueError
  | ComplexValue.

Inductive result (A : Type) : Type :=
  | Ok (a : A)
  | Raise (e : exn).

Arguments Ok {A} a.
Arguments Raise {A} e.

Definition bind {A B : Type} (r : result A) (k : A -> result B) : result B :=
  match r with
  | Ok a => k a
  | Raise e => Raise e
  end.


(** [a / b]: true division, [ZeroDivisionError] on a zero divisor. *)
Definition div (a b : R) : result R :=
  if Req_EM_T b 0 then Raise ZeroDivisionError else Ok (a / b).

Definition is_whole (b : R) : {b = IZR (Zfloor b)} + {b <> IZR (Zfloor b)} :=
  Req_EM_T b (IZR (Zfloor b)).

(** [a ** b].  A positive base takes any exponent; a base [<= 0] takes whole
    exponents (a negative one inverts, and [0] cannot be inverted);
    [0 ** b] is [0] for a fractional [b > 0]. *)
Definition pow (a b : R) : result R :=
  if Rlt_dec 0 a then Ok (Rpower a b)
  else if is_whole b then
    let k := Zfloor b in
    if (0 <=? k)%Z then Ok (a ^ Z.to_nat k)
    else if Req_EM_T a 0 then Raise ZeroDivisionError
    else Ok (/ a ^ Z.to_nat (- k))
  else if Req_EM_T a 0 then
    if Rlt_dec 0 b then Ok 0 else Raise ZeroDivisionError
  else Raise ComplexValue.

(** [math.factorial(k)]: [ValueError] on a negative argument. *)
Definition factorial (k : Z) : result R :=
  if (k <? 0)%Z then Raise ValueError else Ok (INR (fact (Z.to_nat k))).

(** [round(x)]: nearest integer, ties to the even one. *)
Definition round (x : R) : Z :=
  let f := Zfloor x in
  let d := x - IZR f in
  if Rlt_dec d (1 / 2) then f
  else if Rlt_dec (1 / 2) d then (f + 1)%Z
  else if Z.even f then f else (f + 1)%Z.

(** [round(x, ndigits)]: [x] rounded to [ndigits] decimals. *)
Definition round_to (x : R) (ndigits : nat) : R :=
  IZR (round (x * 10 ^ ndigits)) / 10 ^ ndigits.

(** [math.ceil(x)]. *)
Definition ceil (x : R) : Z := Zceil x.

(** [range(k)]: [0, 1, ..., k-1], empty when [k <= 0]. *)
Definition range (k : Z) : list Z := map Z.of_nat (seq 0 (Z.to_nat k)).

(** [for i in l: acc = body i acc], stopping at the first exception. *)
Fixpoint for_each {A S : Type} (l : list A) (body : A -> S -> result S)
    (acc : S) : result S :=
  match l with
  | [] => Ok acc
  | i :: l' => bind (body i acc) (for_each l' body)
  end.

End Py.

Import Py.

Declare Scope py_scope.
Delimit Scope py_scope with py.
Notation "x <- e ;; k" := (bind e (fun x => k))
  (at level 61, e at next level, right associativity) : py_scope.
Open Scope py_scope.

(** ** [get_traffic_intensity] (main.py, line 35) *)

Definition get_traffic_intensity (arrival_rate num_agents service_rate : R)
    : result R :=
  div arrival_rate (num_agents * service_rate).

(** ** The class [ErlangQueue] (main.py, line 56) *)

Module ErlangQueue.

Record t : Type := init {
  num_agents : R;
  target_answer_time : R;
  target_service_level_agreement : R;
  average_handling_time : R;
  shrinkage : R
}.

(** One pass of [for i in range(round(self.num_agents))]:
    [y += traffic_intensity**i / math.factorial(i)]. *)
Definition add_term (traffic_intensity : R) (i : Z) (y : R) : result R :=
  p <- pow traffic_intensity (IZR i) ;;
  f <- factorial i ;;
  q <- div p f ;;
  Ok (y + q).

Definition waiting_probability (self : t) (traffic_intensity : R) : result R :=
  p <- pow traffic_intensity (num_agents self) ;;
  f <- factorial (round (num_agents self)) ;;
  q <- div p f ;;
  x <- div (q * num_agents self) (num_agents self - traffic_intensity) ;;
  y <- for_each (range (round (num_agents self)))
         (add_term traffic_intensity) 1 ;;
  div x (y + x).

Definition service_level_agreement (self : t) (wait_prob traffic_intensity : R)
    : result R :=
  r <- div (target_answer_time self) (average_handling_time self) ;;
  e <- pow (exp 1) (- ((num_agents self - traffic_intensity) * r)) ;;
  Ok (1 - wait_prob * e).

End ErlangQueue.

(** ** [forward] (main.py, line 111) *)

(** The seven lists [forward] fills and returns. *)
Record series : Type := mk_series {
  wp_list : list R;
  sla_list : list R;
  agent_list : list R;
  average_answer_speed : list R;
  percent_calls_answered_immediately : list R;
  maximum_occupancy : list R;
  num_shrinkage : list Z
}.

Definition no_series : series := mk_series [] [] [] [] [] [] [].

Section Forward.

Variables traffic_intensity target_answer_time : R.
Variables target_service_level_agreement average_handling_time shrinkage : R.

(** The block that [forward] runs once before the loop (lines 135-154) and
    once per pass of the loop (lines 159-178): build the queue for
    [num_agents], evaluate it, append one value to each list.  It yields
    the unrounded [sla], which the loop tests. *)
Definition evaluate (num_agents : R) (s : series) : result (R * series) :=
  let queue := ErlangQueue.init num_agents target_answer_time
                 target_service_level_agreement average_handling_time
                 shrinkage in
  wp <- ErlangQueue.waiting_probability queue traffic_intensity ;;
  sla <- ErlangQueue.service_level_agreement queue wp traffic_intensity ;;
  asa <- div (wp * average_handling_time) (num_agents - traffic_intensity) ;;
  occ <- div traffic_intensity num_agents ;;
  shr <- div num_agents (1 - shrinkage) ;;
  Ok (sla,
      mk_series
        (wp_list s ++ [wp])
        (sla_list s ++ [round_to (sla * 100) 2])
        (agent_list s ++ [num_agents])
        (average_answer_speed s ++ [round_to asa 1])
        (percent_calls_answered_immediately s
           ++ [round_to ((1 - wp) * 100) 2])
        (maximum_occupancy s ++ [round_to (occ * 100) 2])
        (num_shrinkage s ++ [ceil shr])).

(** [while sla < target_service_level_agreement: num_agents += 1; ...].
    [None] means the loop is still running when [fuel] passes are spent. *)
Fixpoint optimize (fuel : nat) (sla num_agents : R) (s : series)
    : option (result series) :=
  if Rlt_dec sla target_service_level_agreement then
    match fuel with
    | O => None
    | S fuel' =>
        match evaluate (num_agents + 1) s with
        | Raise e => Some (Raise e)
        | Ok (sla', s') => optimize fuel' sla' (num_agents + 1) s'
        end
    end
  else Some (Ok s).

Definition forward (fuel : nat) (num_agents : R) : option (result series) :=
  match evaluate num_agents no_series with
  | Raise e => Some (Raise e)
  | Ok (sla, s) => optimize fuel sla num_agents s
  end.

End Forward.

(** ** The module-level script (main.py, lines 18-52 and 195-214) *)

Module Script.

Definition normal_arrival_rate : R := 225.
Definition vacation_arrival_rate : R := 375.
Definition normal_num_agents : R := 7.
Definition vacation_num_agents : R := 2.
Definition normal_service_rate : R := 60.
Definition vacation_service_rate : R := 25.
Definition vac_prob : R := 75 / 100.
Definition average_handling_time : R := 180.
Definition target_answer_time : R := 20.
Definition target_sla : R := 80 / 100.
Definition shrinkage : R := 30 / 100.

(** [traffic = (vac_prob * traffic_v) + ((1 - vac_prob) * traffic_n)] *)
Definition traffic (vac_prob traffic_v traffic_n : R) : R :=
  (vac_prob * traffic_v) + ((1 - vac_prob) * traffic_n).

(** [num_agents = round((vac_prob * vacation_num_agents)
                        + ((1 - vac_prob) * normal_num_agents))] *)
Definition num_agents (vac_prob vacation_num_agents normal_num_agents : R) : Z :=
  round ((vac_prob * vacation_num_agents) + ((1 - vac_prob) * normal_num_agents)).

(** The call at the end of the script. *)
Definition main (fuel : nat) : option (result series) :=
  match get_traffic_intensity normal_arrival_rate normal_num_agents
          normal_service_rate,
        get_traffic_intensity vacation_arrival_rate vacation_num_agents
          vacation_service_rate with
  | Ok traffic_n, Ok traffic_v =>
      forward (traffic vac_prob traffic_v traffic_n) target_answer_time
        target_sla average_handling_time shrinkage fuel
        (IZR (num_agents vac_prob vacation_num_agents normal_num_agents))
  | Raise e, _ => Some (Raise e)
  | _, Raise e => Some (Raise e)
  end.

End Script.

(** ** The specification's formulas, as the spec words them *)

(** [sum over i = 0..N-1 of f i]. *)
Fixpoint sum_below (f : nat -> R) (N : nat) : R :=
  match N with
  | O => 0
  | S n => sum_below f n + f n
  end.

(** [x = (A^N / N!) * N / (N - A)]. *)
Definition erlang_x (A : R) (N : Z) : R :=
  (A ^ Z.to_nat N / INR (fact (Z.to_nat N))) * IZR N / (IZR N - A).

(** [y = 1 + sum over i = 0..N-1 of A^i / i!]. *)
Definition erlang_y (A : R) (N : Z) : R :=
  1 + sum_below (fun i => A ^ i / INR (fact i)) (Z.to_nat N).

(** [waitingProbability = x / (x + y)]. *)
Definition erlang_wp (A : R) (N : Z) : R :=
  erlang_x A N / (erlang_x A N + erlang_y A N).

(** [serviceLevel = 1 - waitingProbability
                      * exp(-(numAgents - trafficIntensity)
                            * (targetAnswerTime / averageHandlingTime))]. *)
Definition exact_sla (A T AHT wp n : R) : R :=
  1 - wp * exp (- ((n - A) * (T / AHT))).

(** The service level at a whole agent count [N]. *)
Definition sla_at (A T AHT : R) (N : Z) : R :=
  exact_sla A T AHT (erlang_wp A N) (IZR N).


(** What [sla_list] records for an unrounded service level. *)
Definition recorded (sla : R) : R := round_to (sla * 100) 2.

(** [n0, n0 + 1, ..., n0 + L - 1]. *)
Definition consecutive (n0 : R) (L : nat) : list R :=
  map (fun i => n0 + INR i) (seq 0 L).

(** All seven lists have length [L]. *)
Definition lengths (s : series) (L : nat) : Prop :=
  length (wp_list s) = L /\ length (sla_list s) = L
  /\ length (agent_list s) = L /\ length (average_answer_speed s) = L
  /\ length (percent_calls_answered_immediately s) = L
  /\ length (maximum_occupancy s) = L /\ length (num_shrinkage s) = L.


(** The series after one more evaluation, at a whole and stable agent
    count [N], has been appended to [s]. *)
Definition extend (A T AHT shr : R) (N : Z) (s : series) : series :=
  mk_series
    (wp_list s ++ [erlang_wp A N])
    (sla_list s ++ [recorded (sla_at A T AHT N)])
    (agent_list s ++ [IZR N])
    (average_answer_speed s
       ++ [round_to (erlang_wp A N * AHT / (IZR N - A)) 1])
    (percent_calls_answered_immediately s
       ++ [round_to ((1 - erlang_wp A N) * 100) 2])
    (maximum_occupancy s ++ [round_to (A / IZR N * 100) 2])
    (num_shrinkage s ++ [ceil (IZR N / (1 - shr))]).

(** Loop invariant for the lengths and the agent counts: after [k] passes
    the lists hold [k + 1] entries and the agent count is [n0 + k]. *)
Definition shape_inv (n0 n sla : R) (s : series) : Prop :=
  exists k : nat,
    lengths s (S k) /\ agent_list s = consecutive n0 (S k) /\ n = n0 + INR k.


(** The table of the search in closed form: the seven lists for the [L]
    whole agent counts [N0, N0 + 1, ..., N0 + L - 1], each entry computed
    from the formulas. *)
Definition trial_series (A T AHT shr : R) (N0 : Z) (L : nat) : series :=
  let at_count (f : Z -> R) := map (fun i => f (N0 + Z.of_nat i)%Z) (seq 0 L) in
  mk_series
    (at_count (erlang_wp A))
    (at_count (fun N => recorded (sla_at A T AHT N)))
    (at_count IZR)
    (at_count (fun N => round_to (erlang_wp A N * AHT / (IZR N - A)) 1))
    (at_count (fun N => round_to ((1 - erlang_wp A N) * 100) 2))
    (at_count (fun N => round_to (A / IZR N * 100) 2))
    (map (fun i => ceil (IZR (N0 + Z.of_nat i) / (1 - shr))) (seq 0 L)).


(** Entries of a list of reals in falling, or rising, order. *)
Definition falling (l : list R) : Prop :=
  forall i j : nat, (i <= j < length l)%nat -> nth j l 0 <= nth i l 0.

Definition rising (l : list R) : Prop :=
  forall i j : nat, (i <= j < length l)%nat -> nth i l 0 <= nth j l 0.


(** ** The search over any arithmetic

    How the loop of [forward] stops does not depend on what the numbers
    are.  [Any] is the same program over an interface of the Python
    operations it uses: each operation returns a value or raises, and the
    kind of number and of exception is left open.  Python's ints and binary
    floats, with their rounding, overflow, infinities and NaN, are one
    implementation of the interface; the exact rationals that follow are
    another, on which the program runs here. *)

Module Any.

Inductive outcome (E A : Type) : Type :=
  | Return (a : A)
  | Throw (e : E).

Arguments Return {E A} a.
Arguments Throw {E A} e.

Definition bind {E A B : Type} (r : outcome E A) (k : A -> outcome E B)
    : outcome E B :=
  match r with
  | Return a => k a
  | Throw e => Throw e
  end.

Declare Scope any_scope.
Delimit Scope any_scope with any.
Notation "x <- e ;; k" := (bind e (fun x => k))
  (at level 61, e at next level, right associativity) : any_scope.
Local Open Scope any_scope.

(** The operations of Python the program uses. *)
Class Arithmetic (num E : Type) : Type := {
  plus : num -> num -> outcome E num;
  minus : num -> num -> outcome E num;
  times : num -> num -> outcome E num;
  divide : num -> num -> outcome E num;
  power : num -> num -> outcome E num;
  negate : num -> outcome E num;
  less : num -> num -> outcome E bool;
  round_int : num -> outcome E Z;
  round_digits : num -> nat -> outcome E num;
  ceiling : num -> outcome E Z;
  factorial_int : Z -> outcome E num;
  int : Z -> num;
  euler : num
}.

Record queue (num : Type) : Type := init {
  num_agents : num;
  target_answer_time : num;
  target_service_level_agreement : num;
  average_handling_time : num;
  shrinkage : num
}.

Arguments init {num}.
Arguments num_agents {num}.
Arguments target_answer_time {num}.
Arguments target_service_level_agreement {num}.
Arguments average_handling_time {num}.
Arguments shrinkage {num}.

Record series (num : Type) : Type := mk_series {
  wp_list : list num;
  sla_list : list num;
  agent_list : list num;
  average_answer_speed : list num;
  percent_calls_answered_immediately : list num;
  maximum_occupancy : list num;
  num_shrinkage : list Z
}.

Arguments mk_series {num}.
Arguments wp_list {num}.
Arguments sla_list {num}.
Arguments agent_list {num}.
Arguments average_answer_speed {num}.
Arguments percent_calls_answered_immediately {num}.
Arguments maximum_occupancy {num}.
Arguments num_shrinkage {num}.

Fixpoint for_each {E A S : Type} (l : list A) (body : A -> S -> outcome E S)
    (acc : S) : outcome E S :=
  match l with
  | [] => Return acc
  | i :: l' => bind (body i acc) (for_each l' body)
  end.

Section Program.

Context {num E : Type} {arithmetic : Arithmetic num E}.

(** [y += (traffic_intensity**i) / math.factorial(i)] *)
Definition add_term (traffic_intensity : num) (i : Z) (y : num)
    : outcome E num :=
  p <- power traffic_intensity (int i) ;;
  f <- factorial_int i ;;
  q <- divide p f ;;
  plus y q.

Definition waiting_probability (self : queue num) (traffic_intensity : num)
    : outcome E num :=
  p <- power traffic_intensity (num_agents self) ;;
  k <- round_int (num_agents self) ;;
  f <- factorial_int k ;;
  q <- divide p f ;;
  m <- times q (num_agents self) ;;
  d <- minus (num_agents self) traffic_intensity ;;
  x <- divide m d ;;
  k' <- round_int (num_agents self) ;;
  y <- for_each (range k') (add_term traffic_intensity) (int 1) ;;
  s <- plus y x ;;
  divide x s.

Definition service_level_agreement (self : queue num)
    (wait_prob traffic_intensity : num) : outcome E num :=
  d <- minus (num_agents self) traffic_intensity ;;
  r <- divide (target_answer_time self) (average_handling_time self) ;;
  m <- times d r ;;
  z <- negate m ;;
  e <- power euler z ;;
  w <- times wait_prob e ;;
  minus (int 1) w.

Variables traffic_intensity answer_time : num.
Variables target_sla handling_time shrink : num.

(** Lines 135-154, and again 159-178: one evaluation and its seven
    appends, operation by operation in the order of the source. *)
Definition evaluate (agents : num) (s : series num)
    : outcome E (num * series num) :=
  let q := init agents answer_time target_sla handling_time shrink in
  wp <- waiting_probability q traffic_intensity ;;
  sla <- service_level_agreement q wp traffic_intensity ;;
  sla100 <- times sla (int 100) ;;
  sla_r <- round_digits sla100 2 ;;
  t <- times wp handling_time ;;
  d <- minus agents traffic_intensity ;;
  asa <- divide t d ;;
  asa_r <- round_digits asa 1 ;;
  c <- minus (int 1) wp ;;
  c100 <- times c (int 100) ;;
  c_r <- round_digits c100 2 ;;
  o <- divide traffic_intensity agents ;;
  o100 <- times o (int 100) ;;
  o_r <- round_digits o100 2 ;;
  u <- minus (int 1) shrink ;;
  h <- divide agents u ;;
  h_c <- ceiling h ;;
  Return (sla,
          mk_series (wp_list s ++ [wp]) (sla_list s ++ [sla_r])
            (agent_list s ++ [agents]) (average_answer_speed s ++ [asa_r])
            (percent_calls_answered_immediately s ++ [c_r])
            (maximum_occupancy s ++ [o_r]) (num_shrinkage s ++ [h_c])).

(** [while sla < target_service_level_agreement: num_agents += 1; ...] *)
Fixpoint optimize (fuel : nat) (sla agents : num) (s : series num)
    : option (outcome E (series num)) :=
  match less sla target_sla with
  | Throw e => Some (Throw e)
  | Return false => Some (Return s)
  | Return true =>
      match fuel with
      | O => None
      | S fuel' =>
          match plus agents (int 1) with
          | Throw e => Some (Throw e)
          | Return agents' =>
              match evaluate agents' s with
              | Throw e => Some (Throw e)
              | Return (sla', s') => optimize fuel' sla' agents' s'
              end
          end
      end
  end.

Definition forward (fuel : nat) (agents : num)
    : option (outcome E (series num)) :=
  match evaluate agents (mk_series [] [] [] [] [] [] []) with
  | Throw e => Some (Throw e)
  | Return (sla, s) => optimize fuel sla agents s
  end.

(** [level] is the service level the method returns for the waiting
    probability [wp] at [agents] agents. *)
Definition entry_level (wp agents level : num) : Prop :=
  service_level_agreement
    (init agents answer_time target_sla handling_time shrink) wp
    traffic_intensity
  = Return level.

(** [recorded] is what [sla_list] holds for [level]:
    [round(level * 100, 2)]. *)
Definition recorded_as (level recorded : num) : Prop :=
  exists h, times level (int 100) = Return h
            /\ round_digits h 2 = Return recorded.

(** [levels] are the unrounded service levels of the entries of [s]. *)
Definition levels_of (s : series num) (levels : list num) : Prop :=
  length (wp_list s) = length (agent_list s)
  /\ Forall2 (fun p level => entry_level (fst p) (snd p) level)
       (combine (wp_list s) (agent_list s)) levels
  /\ Forall2 recorded_as levels (sla_list s).

(** First crossing, by the loop's own test: [level < target] holds of every
    level but the last and fails on the last. *)
Definition crosses_at_last (levels : list num) : Prop :=
  exists prior final,
    levels = prior ++ [final]
    /\ Forall (fun level => less level target_sla = Return true) prior
    /\ less final target_sla = Return false.

End Program.

End Any.

(** Exact rational arithmetic as an implementation of the interface: [**]
    for whole exponents, [round] to even at ties; [math.e] is the double it
    is in Python, 6121026514868073 / 2^51. *)
Definition q_round (x : Q) : Z :=
  let f := Qfloor x in
  match Qcompare (x - inject_Z f) (1 # 2) with
  | Lt => f
  | Gt => (f + 1)%Z
  | Eq => if Z.even f then f else (f + 1)%Z
  end.

Definition q_whole (x : Q) : bool := Qeq_bool x (inject_Z (Qfloor x)).

#[export] Instance rational : Any.Arithmetic Q exn := {
  Any.plus a b := Any.Return (a + b)%Q;
  Any.minus a b := Any.Return (a - b)%Q;
  Any.times a b := Any.Return (a * b)%Q;
  Any.divide a b :=
    if Qeq_bool b 0 then Any.Throw ZeroDivisionError
    else Any.Return (a / b)%Q;
  Any.power a b :=
    if q_whole b then
      if Qeq_bool a 0 && (Qfloor b <? 0)%Z then Any.Throw ZeroDivisionError
      else Any.Return (Qpower a (Qfloor b))
    else Any.Throw ValueError;
  Any.negate a := Any.Return (- a)%Q;
  Any.less a b :=
    Any.Return (match Qcompare a b with Lt => true | _ => false end);
  Any.round_int a := Any.Return (q_round a);
  Any.round_digits a d :=
    Any.Return (inject_Z (q_round (a * inject_Z (10 ^ Z.of_nat d)))
                / inject_Z (10 ^ Z.of_nat d))%Q;
  Any.ceiling a := Any.Return (Qceiling a);
  Any.factorial_int k :=
    if (k <? 0)%Z then Any.Throw ValueError
    else Any.Return (inject_Z (Z.of_nat (fact (Z.to_nat k))));
  Any.int k := inject_Z k;
  Any.euler := 6121026514868073 # 2251799813685248
}.

(** ** Lemmas on the primitives *)

Section PyLemmas.

Lemma bind_ok {A B : Type} (a : A) (k : A -> result B) :
  bind (Ok a) k = k a.
Proof. reflexivity. Qed.

Lemma div_ok (a b : R) : b <> 0 -> div a b = Ok (a / b).
Proof. intro H. unfold div. destruct (Req_EM_T b 0); [contradiction | reflexivity]. Qed.



Lemma factorial_ok (k : Z) :
  (0 <= k)%Z -> factorial k = Ok (INR (fact (Z.to_nat k))).
Proof.
  intro H. unfold factorial. destruct (Z.ltb_spec k 0); [lia | reflexivity].
Qed.


Lemma is_whole_IZR (k : Z) : IZR k = IZR (Zfloor (IZR k)).
Proof. now rewrite ZfloorZ. Qed.

(** [a ** k] for a natural number [k] is the iterated product. *)
Lemma pow_nat (a : R) (k : nat) : pow a (INR k) = Ok (a ^ k).
Proof.
  unfold pow. destruct (Rlt_dec 0 a) as [Ha | Ha].
  - now rewrite Rpower_pow.
  - rewrite INR_IZR_INZ. destruct (is_whole (IZR (Z.of_nat k))) as [_ | N].
    + rewrite ZfloorZ. destruct (Z.leb_spec 0 (Z.of_nat k)); [| lia].
      now rewrite Nat2Z.id.
    + exfalso. apply N, is_whole_IZR.
Qed.

Lemma pow_Z (a : R) (k : Z) :
  (0 <= k)%Z -> pow a (IZR k) = Ok (a ^ Z.to_nat k).
Proof.
  intro H. rewrite <- (Z2Nat.id k) at 1 by exact H.
  rewrite <- INR_IZR_INZ. apply pow_nat.
Qed.

Lemma pow_pos_base (a b : R) : 0 < a -> pow a b = Ok (Rpower a b).
Proof. intro H. unfold pow. destruct (Rlt_dec 0 a); [reflexivity | contradiction]. Qed.

(** [math.e ** y] is the exponential. *)
Lemma pow_e (y : R) : pow (exp 1) y = Ok (exp y).
Proof.
  rewrite pow_pos_base by apply exp_pos.
  unfold Rpower. now rewrite ln_exp, Rmult_1_r.
Qed.

(** [round] is within one half of its argument, and picks the nearest. *)
Lemma round_near (x : R) : IZR (round x) - 1 / 2 <= x <= IZR (round x) + 1 / 2.
Proof.
  unfold round. pose proof (Zfloor_bound x) as [L U].
  destruct (Rlt_dec (x - IZR (Zfloor x)) (1 / 2)) as [H1 | H1].
  - lra.
  - destruct (Rlt_dec (1 / 2) (x - IZR (Zfloor x))) as [H2 | H2].
    + rewrite plus_IZR. lra.
    + destruct (Z.even (Zfloor x)); [| rewrite plus_IZR]; lra.
Qed.

Lemma round_unique (x : R) (k : Z) :
  IZR k - 1 / 2 < x < IZR k + 1 / 2 -> round x = k.
Proof.
  intros [L U]. pose proof (round_near x) as [L' U'].
  assert (H1 : IZR (round x) < IZR (k + 1)) by (rewrite plus_IZR; lra).
  assert (H2 : IZR k < IZR (round x + 1)) by (rewrite plus_IZR; lra).
  apply lt_IZR in H1, H2. lia.
Qed.

Lemma round_IZR (k : Z) : round (IZR k) = k.
Proof. apply round_unique. lra. Qed.

Lemma round_le (x y : R) : x <= y -> (round x <= round y)%Z.
Proof.
  intro H. destruct (Z.le_gt_cases (round x) (round y)) as [L | G]; [exact L |].
  exfalso.
  (* round y + 1 <= round x, so both are ties around one point *)
  pose proof (round_near x) as [Lx Ux]. pose proof (round_near y) as [Ly Uy].
  assert (G' : (round y + 1 <= round x)%Z) by lia.
  apply IZR_le in G'. rewrite plus_IZR in G'.
  assert (Ex : x = IZR (round x) - 1 / 2) by lra.
  assert (Ey : y = IZR (round y) + 1 / 2) by lra.
  assert (Er : IZR (round x) = IZR (round y) + 1) by lra.
  assert (Exy : x = y) by lra.
  subst y. lra.
Qed.

Lemma round_to_le (x y : R) (d : nat) : x <= y -> round_to x d <= round_to y d.
Proof.
  intro H. unfold round_to.
  assert (P : 0 < 10 ^ d) by (apply pow_lt; lra).
  apply Rmult_le_compat_r; [left; now apply Rinv_0_lt_compat |].
  apply IZR_le, round_le. nra.
Qed.


End PyLemmas.

(** ** Evaluating [waiting_probability] *)

Section WaitingProbability.

Import ErlangQueue.

Lemma for_each_app {A S : Type} (l1 l2 : list A) (body : A -> S -> result S)
    (acc : S) :
  for_each (l1 ++ l2) body acc = bind (for_each l1 body acc) (for_each l2 body).
Proof.
  revert acc. induction l1 as [| i l1 IH]; intro acc; simpl.
  - reflexivity.
  - destruct (body i acc); simpl; [apply IH | reflexivity].
Qed.

Lemma add_term_ok (A : R) (i : nat) (y : R) :
  add_term A (Z.of_nat i) y = Ok (y + A ^ i / INR (fact i)).
Proof.
  unfold add_term.
  rewrite <- INR_IZR_INZ, pow_nat, bind_ok.
  rewrite factorial_ok by lia. rewrite bind_ok, Nat2Z.id.
  rewrite div_ok by apply INR_fact_neq_0. reflexivity.
Qed.

(** The loop of [waiting_probability] never raises; it adds the first
    [N] terms of the exponential series to its start value. *)
Lemma sum_loop_nat (A : R) (N : nat) (y0 : R) :
  for_each (map Z.of_nat (seq 0 N)) (add_term A) y0
  = Ok (y0 + sum_below (fun i => A ^ i / INR (fact i)) N).
Proof.
  induction N as [| N IH].
  - simpl. f_equal. lra.
  - rewrite seq_S, map_app, for_each_app, IH, bind_ok.
    cbn [Nat.add map for_each sum_below].
    rewrite add_term_ok, bind_ok. f_equal. lra.
Qed.

Lemma sum_loop (A : R) (k : Z) :
  for_each (range k) (add_term A) 1 = Ok (erlang_y A k).
Proof. unfold range, erlang_y. apply sum_loop_nat. Qed.

(** [waiting_probability] step by step, for any real agent count: the
    power and the two factors use [num_agents] as it is, the factorial and
    the number of summed terms use [round(num_agents)]. *)
Lemma waiting_probability_eval (q : t) (A p : R) :
  pow A (num_agents q) = Ok p ->
  (0 <= round (num_agents q))%Z ->
  waiting_probability q A =
    if Req_EM_T (num_agents q - A) 0 then Raise ZeroDivisionError
    else
      let x := p / INR (fact (Z.to_nat (round (num_agents q))))
               * num_agents q / (num_agents q - A) in
      div x (erlang_y A (round (num_agents q)) + x).
Proof.
  intros Hp Hr. unfold waiting_probability.
  rewrite Hp, bind_ok, factorial_ok, bind_ok by exact Hr.
  rewrite div_ok, bind_ok by apply INR_fact_neq_0.
  unfold div at 1. destruct (Req_EM_T (num_agents q - A) 0) as [E | E].
  - reflexivity.
  - rewrite bind_ok, sum_loop, bind_ok. reflexivity.
Qed.


Lemma sum_below_nonneg (f : nat -> R) (N : nat) :
  (forall i, 0 <= f i) -> 0 <= sum_below f N.
Proof.
  intro H. induction N as [| N IH]; simpl; [lra | specialize (H N); lra].
Qed.

Lemma term_nonneg (A : R) (i : nat) : 0 <= A -> 0 <= A ^ i / INR (fact i).
Proof.
  intro H. apply Rmult_le_pos; [now apply pow_le |].
  left. apply Rinv_0_lt_compat, INR_fact_lt_0.
Qed.

Lemma erlang_y_ge_1 (A : R) (N : Z) : 0 <= A -> 1 <= erlang_y A N.
Proof.
  intro H. unfold erlang_y.
  pose proof (sum_below_nonneg (fun i => A ^ i / INR (fact i)) (Z.to_nat N)
                (fun i => term_nonneg A i H)). lra.
Qed.

Lemma erlang_x_nonneg (A : R) (N : Z) : 0 <= A -> A < IZR N -> 0 <= erlang_x A N.
Proof.
  intros H0 H1. unfold erlang_x.
  apply Rmult_le_pos; [| left; apply Rinv_0_lt_compat; lra].
  apply Rmult_le_pos; [now apply term_nonneg | lra].
Qed.


Lemma stable_nonneg (A : R) (N : Z) : 0 <= A -> A < IZR N -> (0 < N)%Z.
Proof. intros H0 H1. apply lt_IZR. lra. Qed.

(** For a whole, stable agent count the method returns the spec's value. *)
Lemma waiting_probability_whole (q : t) (A : R) (N : Z) :
  num_agents q = IZR N -> 0 <= A -> A < IZR N ->
  waiting_probability q A = Ok (erlang_wp A N).
Proof.
  intros Hn H0 H1. pose proof (stable_nonneg A N H0 H1) as HN.
  rewrite (waiting_probability_eval q A (A ^ Z.to_nat N)).
  - rewrite Hn, round_IZR.
    destruct (Req_EM_T (IZR N - A) 0) as [E | _]; [lra |].
    cbv zeta. fold (erlang_x A N).
    pose proof (erlang_y_ge_1 A N H0). pose proof (erlang_x_nonneg A N H0 H1).
    rewrite div_ok by lra. unfold erlang_wp. now rewrite (Rplus_comm (erlang_y A N)).
  - rewrite Hn. apply pow_Z. lia.
  - rewrite Hn, round_IZR. lia.
Qed.

(** [x] for one more agent, in terms of the last term of the sum. *)
Lemma erlang_x_succ (A : R) (N : Z) :
  (0 <= N)%Z -> A < IZR N + 1 ->
  erlang_x A (N + 1)
  = A * (A ^ Z.to_nat N / INR (fact (Z.to_nat N))) / (IZR N + 1 - A).
Proof.
  intros H HA. unfold erlang_x.
  replace (Z.to_nat (N + 1)) with (S (Z.to_nat N)) by lia.
  rewrite fact_simpl, mult_INR, S_INR, plus_IZR.
  rewrite (INR_IZR_INZ (Z.to_nat N)), Z2Nat.id by exact H.
  pose proof (INR_fact_neq_0 (Z.to_nat N)).
  assert (0 <= IZR N) by now apply IZR_le.
  simpl. field. repeat split; lra.
Qed.

Lemma erlang_wp_bounds (A : R) (N : Z) :
  0 <= A -> A < IZR N -> 0 <= erlang_wp A N < 1.
Proof.
  intros H0 H1. unfold erlang_wp.
  pose proof (erlang_y_ge_1 A N H0). pose proof (erlang_x_nonneg A N H0 H1).
  assert (P : 0 < erlang_x A N + erlang_y A N) by lra.
  split.
  - apply Rmult_le_pos; [lra | left; now apply Rinv_0_lt_compat].
  - apply (Rmult_lt_reg_r (erlang_x A N + erlang_y A N)); [exact P |].
    unfold Rdiv. rewrite Rmult_assoc, Rinv_l by lra. lra.
Qed.


End WaitingProbability.

(** ** One more agent: how [x] and [y] move *)

Section OneMoreAgent.

Variable A : R.
Hypothesis A_nonneg : 0 <= A.

Lemma erlang_y_succ (N : Z) :
  (0 <= N)%Z ->
  erlang_y A (N + 1) = erlang_y A N + A ^ Z.to_nat N / INR (fact (Z.to_nat N)).
Proof.
  intro H. unfold erlang_y.
  replace (Z.to_nat (N + 1)) with (S (Z.to_nat N)) by lia.
  simpl. lra.
Qed.

Lemma erlang_x_decreases (N : Z) :
  A < IZR N -> erlang_x A (N + 1) <= erlang_x A N.
Proof.
  intro HA. pose proof (stable_nonneg A N A_nonneg HA) as HN.
  rewrite erlang_x_succ by (lia || lra). unfold erlang_x.
  set (a := A ^ Z.to_nat N / INR (fact (Z.to_nat N))).
  assert (Ha : 0 <= a) by now apply term_nonneg.
  assert (P1 : 0 < IZR N - A) by lra.
  assert (P2 : 0 < IZR N + 1 - A) by lra.
  apply (Rmult_le_reg_r ((IZR N + 1 - A) * (IZR N - A))); [nra |].
  replace (A * a / (IZR N + 1 - A) * ((IZR N + 1 - A) * (IZR N - A)))
    with (a * (A * (IZR N - A))) by (field; lra).
  replace (a * IZR N / (IZR N - A) * ((IZR N + 1 - A) * (IZR N - A)))
    with (a * (IZR N * (IZR N + 1 - A))) by (field; lra).
  apply Rmult_le_compat_l; [exact Ha | nra].
Qed.

Lemma erlang_y_increases (N : Z) :
  (0 <= N)%Z -> erlang_y A N <= erlang_y A (N + 1).
Proof.
  intro H. rewrite erlang_y_succ by exact H.
  pose proof (term_nonneg A (Z.to_nat N) A_nonneg). lra.
Qed.

(** [x / (x + y)] goes down when [x] goes down and [y] goes up. *)
Lemma ratio_le (x y x' y' : R) :
  0 <= x' <= x -> 1 <= y <= y' -> x' / (x' + y') <= x / (x + y).
Proof.
  intros [H1 H2] [H3 H4].
  apply (Rmult_le_reg_r ((x' + y') * (x + y))); [nra |].
  replace (x' / (x' + y') * ((x' + y') * (x + y))) with (x' * (x + y))
    by (field; lra).
  replace (x / (x + y) * ((x' + y') * (x + y))) with (x * (x' + y'))
    by (field; lra).
  nra.
Qed.

Lemma erlang_wp_step (N : Z) :
  A < IZR N -> erlang_wp A (N + 1) <= erlang_wp A N.
Proof.
  intro HA. pose proof (stable_nonneg A N A_nonneg HA) as HN.
  unfold erlang_wp. apply ratio_le.
  - split; [| now apply erlang_x_decreases].
    apply erlang_x_nonneg; [exact A_nonneg | rewrite plus_IZR; lra].
  - split; [now apply erlang_y_ge_1 | apply erlang_y_increases; lia].
Qed.

Lemma erlang_wp_antitone (N : Z) (k : nat) :
  A < IZR N -> erlang_wp A (N + Z.of_nat k) <= erlang_wp A N.
Proof.
  intro HA. induction k as [| k IH].
  - rewrite Z.add_0_r. lra.
  - replace (N + Z.of_nat (S k))%Z with (N + Z.of_nat k + 1)%Z by lia.
    apply Rle_trans with (2 := IH). apply erlang_wp_step.
    rewrite plus_IZR, <- INR_IZR_INZ. pose proof (pos_INR k). lra.
Qed.

End OneMoreAgent.

(** ** Evaluating one agent count *)

Section Evaluate.

Variables A T target AHT shr : R.

Lemma service_level_agreement_ok (q : ErlangQueue.t) (wp a : R) :
  ErlangQueue.average_handling_time q <> 0 ->
  ErlangQueue.service_level_agreement q wp a
  = Ok (exact_sla a (ErlangQueue.target_answer_time q)
          (ErlangQueue.average_handling_time q) wp (ErlangQueue.num_agents q)).
Proof.
  intro H. unfold ErlangQueue.service_level_agreement.
  rewrite div_ok, bind_ok, pow_e, bind_ok by exact H. reflexivity.
Qed.

(** What a successful evaluation has done, for any real agent count. *)
Lemma evaluate_inv (n sla : R) (s s' : series) :
  evaluate A T target AHT shr n s = Ok (sla, s') ->
  exists wp asa occ k,
    ErlangQueue.waiting_probability (ErlangQueue.init n T target AHT shr) A
      = Ok wp
    /\ sla = exact_sla A T AHT wp n
    /\ s' = mk_series (wp_list s ++ [wp]) (sla_list s ++ [recorded sla])
              (agent_list s ++ [n]) (average_answer_speed s ++ [asa])
              (percent_calls_answered_immediately s
                 ++ [round_to ((1 - wp) * 100) 2])
              (maximum_occupancy s ++ [occ]) (num_shrinkage s ++ [k]).
Proof.
  unfold evaluate. intro H.
  destruct (ErlangQueue.waiting_probability _ A) as [wp |] eqn:Ewp;
    [rewrite bind_ok in H | discriminate H].
  unfold ErlangQueue.service_level_agreement in H. cbn [ErlangQueue.target_answer_time
    ErlangQueue.average_handling_time ErlangQueue.num_agents] in H.
  unfold div at 1 in H. destruct (Req_EM_T AHT 0) as [E | E]; [discriminate H |].
  rewrite bind_ok, pow_e, !bind_ok in H.
  destruct (div (wp * AHT) (n - A)) as [asa |]; [rewrite bind_ok in H | discriminate H].
  destruct (div A n) as [occ |]; [rewrite bind_ok in H | discriminate H].
  destruct (div n (1 - shr)) as [d |]; [rewrite bind_ok in H | discriminate H].
  injection H as Hsla Hs.
  exists wp, (round_to asa 1), (round_to (occ * 100) 2), (ceil d).
  split; [reflexivity |]. split; [now rewrite <- Hsla |].
  rewrite <- Hs, <- Hsla. reflexivity.
Qed.

(** At a whole and stable agent count, with a nonzero handling time and a
    shrinkage other than 1, the evaluation succeeds. *)
Lemma evaluate_whole (N : Z) (s : series) :
  0 <= A -> A < IZR N -> AHT <> 0 -> shr <> 1 ->
  evaluate A T target AHT shr (IZR N) s
  = Ok (sla_at A T AHT N, extend A T AHT shr N s).
Proof.
  intros H0 H1 H2 H3. unfold evaluate.
  rewrite (waiting_probability_whole _ A N) by (reflexivity || assumption).
  rewrite bind_ok, service_level_agreement_ok by exact H2.
  rewrite bind_ok, !div_ok by lra. reflexivity.
Qed.

End Evaluate.

(** ** The loop of [forward] *)

Section Loop.

Variables A T target AHT shr : R.

Let evaluate' := evaluate A T target AHT shr.
Let optimize' := optimize A T target AHT shr.
Let forward' := forward A T target AHT shr.

(** Hoare-style rule for the search: a property of (agent count, last
    service level, lists) that the first evaluation sets up and every pass
    keeps holds of what is returned, next to the negated loop test. *)
Lemma optimize_rule (P : R -> R -> series -> Prop) :
  (forall n sla s sla' s',
      P n sla s -> sla < target ->
      evaluate' (n + 1) s = Ok (sla', s') -> P (n + 1) sla' s') ->
  forall fuel n sla s r,
    P n sla s -> optimize' fuel sla n s = Some (Ok r) ->
    exists n' sla', P n' sla' r /\ target <= sla'.
Proof.
  intros Hstep fuel. induction fuel as [| fuel IH]; intros n sla s r HP H;
    cbn in H; destruct (Rlt_dec sla target) as [Lt | Ge].
  - discriminate H.
  - injection H as <-. exists n, sla. split; [exact HP | lra].
  - destruct (evaluate A T target AHT shr (n + 1) s) as [[sla' s'] |] eqn:E;
      [| discriminate H].
    apply (IH (n + 1) sla' s' r); [| exact H].
    now apply (Hstep n sla s).
  - injection H as <-. exists n, sla. split; [exact HP | lra].
Qed.

Lemma forward_rule (P : R -> R -> series -> Prop) (n0 : R) :
  (forall sla s, evaluate' n0 no_series = Ok (sla, s) -> P n0 sla s) ->
  (forall n sla s sla' s',
      P n sla s -> sla < target ->
      evaluate' (n + 1) s = Ok (sla', s') -> P (n + 1) sla' s') ->
  forall fuel r,
    forward' fuel n0 = Some (Ok r) ->
    exists n sla, P n sla r /\ target <= sla.
Proof.
  intros Hinit Hstep fuel r H. unfold forward', forward in H.
  destruct (evaluate A T target AHT shr n0 no_series) as [[sla s] |] eqn:E;
    [| discriminate H].
  apply (optimize_rule P Hstep fuel n0 sla s r); [| exact H].
  now apply Hinit.
Qed.

(** More fuel does not change an outcome already reached. *)
Lemma optimize_more_fuel (fuel extra : nat) (sla n : R) (s : series)
    (o : result series) :
  optimize' fuel sla n s = Some o -> optimize' (fuel + extra) sla n s = Some o.
Proof.
  revert sla n s. induction fuel as [| fuel IH]; intros sla n s H; cbn in H.
  - destruct (Rlt_dec sla target) as [Lt | Ge] eqn:E; [discriminate H |].
    destruct extra; cbn; rewrite E; exact H.
  - cbn. destruct (Rlt_dec sla target) as [Lt | Ge]; [| exact H].
    destruct (evaluate A T target AHT shr (n + 1) s) as [[sla' s'] |];
      [now apply IH | exact H].
Qed.

(** The first evaluation already meets the target: one entry, no pass. *)
Lemma forward_accepts_first (fuel : nat) (n0 sla : R) (s : series) :
  evaluate' n0 no_series = Ok (sla, s) -> target <= sla ->
  forward' fuel n0 = Some (Ok s).
Proof.
  intros E H. unfold forward', forward. fold evaluate'. rewrite E.
  destruct fuel; cbn; destruct (Rlt_dec sla target); (lra || reflexivity).
Qed.

End Loop.

(** ** Bounds used by the search *)

Section Bounds.

Lemma exp_le_1 (x : R) : x <= 0 -> exp x <= 1.
Proof.
  intros [H | ->]; [| rewrite exp_0; lra].
  left. rewrite <- exp_0. now apply exp_increasing.
Qed.


(** A longer answer window can only help: with [0 <= T / AHT] and a stable
    pair the service level is at least [1 - wp]. *)
Lemma exact_sla_ge (A T AHT wp n : R) :
  0 <= wp -> A <= n -> 0 <= T -> 0 < AHT -> 1 - wp <= exact_sla A T AHT wp n.
Proof.
  intros Hw Hn HT HA. unfold exact_sla.
  assert (Hr : 0 <= T / AHT).
  { apply Rmult_le_pos; [exact HT | left; now apply Rinv_0_lt_compat]. }
  assert (He : exp (- ((n - A) * (T / AHT))) <= 1) by (apply exp_le_1; nra).
  pose proof (exp_pos (- ((n - A) * (T / AHT)))). nra.
Qed.



End Bounds.

(** ** Runs of the search from a whole, stable agent count *)

Section WholeRun.

Variables A T target AHT shr : R.
Hypothesis A_nonneg : 0 <= A.
Hypothesis AHT_nonzero : AHT <> 0.
Hypothesis shr_not_1 : shr <> 1.

Lemma evaluate_next (N : Z) (s : series) :
  A < IZR N ->
  evaluate A T target AHT shr (IZR N + 1) s
  = Ok (sla_at A T AHT (N + 1), extend A T AHT shr (N + 1) s).
Proof.
  intro H. rewrite <- (plus_IZR N 1).
  apply evaluate_whole; try assumption. rewrite plus_IZR. lra.
Qed.



Lemma forward_whole (fuel : nat) (N : Z) :
  A < IZR N ->
  forward A T target AHT shr fuel (IZR N)
  = optimize A T target AHT shr fuel (sla_at A T AHT N) (IZR N)
      (extend A T AHT shr N no_series).
Proof.
  intro HN. unfold forward. now rewrite evaluate_whole.
Qed.

End WholeRun.

(** ** What the script calls [forward] with *)

Section ScriptCall.

Lemma script_num_agents :
  Script.num_agents Script.vac_prob Script.vacation_num_agents
    Script.normal_num_agents = 3%Z.
Proof.
  apply round_unique.
  unfold Script.vac_prob, Script.vacation_num_agents, Script.normal_num_agents.
  lra.
Qed.

(** The blended traffic is 645/112, about 5.76, and the starting count is 3:
    the script's own search starts at an unstable pair. *)
Lemma script_call (fuel : nat) :
  Script.main fuel
  = forward (645 / 112) Script.target_answer_time Script.target_sla
      Script.average_handling_time Script.shrinkage fuel 3
  /\ 3 < 645 / 112.
Proof.
  split; [| lra]. unfold Script.main, get_traffic_intensity.
  unfold Script.normal_arrival_rate, Script.normal_num_agents at 1,
    Script.normal_service_rate, Script.vacation_arrival_rate,
    Script.vacation_num_agents at 1, Script.vacation_service_rate.
  rewrite !div_ok by lra. rewrite script_num_agents.
  f_equal. unfold Script.traffic, Script.vac_prob. field.
Qed.

End ScriptCall.

(** * The claims *)

(** ** C8: [get_traffic_intensity] *)




(** ** C5: the blended model *)



(** ** C7: the service level *)



(** ** C1: the waiting probability and the spec's formula *)









(** ** C3: unstable pairs *)




(** ** C6: more agents, less waiting *)



(** ** Shape of the returned lists *)

Section Shape.

Variables A T target AHT shr : R.

Lemma lengths_snoc (s : series) (L : nat) (wp sla n asa pct occ : R) (k : Z) :
  lengths s L ->
  lengths (mk_series (wp_list s ++ [wp]) (sla_list s ++ [sla])
             (agent_list s ++ [n]) (average_answer_speed s ++ [asa])
             (percent_calls_answered_immediately s ++ [pct])
             (maximum_occupancy s ++ [occ]) (num_shrinkage s ++ [k])) (S L).
Proof.
  unfold lengths. cbn [wp_list sla_list agent_list average_answer_speed
    percent_calls_answered_immediately maximum_occupancy num_shrinkage].
  rewrite !last_length. intuition congruence.
Qed.

Lemma consecutive_snoc (n0 : R) (L : nat) :
  consecutive n0 (S L) = consecutive n0 L ++ [n0 + INR L].
Proof. unfold consecutive. now rewrite seq_S, map_app. Qed.



Lemma shape_init (n0 sla : R) (s : series) :
  evaluate A T target AHT shr n0 no_series = Ok (sla, s) ->
  shape_inv n0 n0 sla s.
Proof.
  intro E. apply evaluate_inv in E as (wp & asa & occ & k & _ & _ & ->).
  exists 0%nat. split; [| split].
  - apply lengths_snoc. unfold lengths. simpl. intuition.
  - unfold consecutive. simpl. f_equal. lra.
  - simpl. lra.
Qed.

Lemma shape_step (n0 n sla sla' : R) (s s' : series) :
  shape_inv n0 n sla s -> sla < target ->
  evaluate A T target AHT shr (n + 1) s = Ok (sla', s') ->
  shape_inv n0 (n + 1) sla' s'.
Proof.
  intros (k & HL & Ha & Hn) _ E.
  apply evaluate_inv in E as (wp & asa & occ & c & _ & _ & ->).
  exists (S k). split; [| split].
  - now apply lengths_snoc.
  - cbn [agent_list]. rewrite Ha, (consecutive_snoc n0 (S k)).
    do 2 f_equal. rewrite S_INR. lra.
  - rewrite S_INR. lra.
Qed.



End Shape.

(** ** Two concrete runs *)

Section ConcreteRuns.

(** [exp(-z)] lies between [(1 - z/2)^2] and [1 / (1 + z/2)^2]. *)
Lemma exp_neg_between (z : R) :
  0 <= z <= 2 ->
  (1 - z / 2) * (1 - z / 2) <= exp (- z)
  /\ exp (- z) <= / (1 + z / 2) * / (1 + z / 2).
Proof.
  intros [H0 H2].
  replace (- z) with (- (z / 2) + - (z / 2)) by lra. rewrite exp_plus.
  pose proof (exp_ineq1_le (- (z / 2))) as L.
  pose proof (exp_ineq1_le (z / 2)) as U.
  pose proof (exp_pos (- (z / 2))) as P.
  assert (U' : exp (- (z / 2)) <= / (1 + z / 2)).
  { rewrite exp_Ropp. apply Rinv_le_contravar; lra. }
  assert (Q : 0 < / (1 + z / 2)) by (apply Rinv_0_lt_compat; lra).
  split; nra.
Qed.

Lemma exp_19_90 : 8 / 10 < exp (- (19 / 90)) < 82 / 100.
Proof.
  destruct (exp_neg_between (19 / 90)) as [L U]; [lra |].
  replace (1 + 19 / 90 / 2) with (199 / 180) in U by lra.
  replace (/ (199 / 180)) with (180 / 199) in U by (field; lra).
  lra.
Qed.

Lemma erlang_wp_1_3 : erlang_wp 1 3 = 1 / 15.
Proof. unfold erlang_wp, erlang_x, erlang_y. simpl. field. Qed.

Lemma erlang_wp_tenth_2 : erlang_wp (1 / 10) 2 = 1 / 400.
Proof. unfold erlang_wp, erlang_x, erlang_y. simpl. field. Qed.

Lemma erlang_wp_tenth_3 : erlang_wp (1 / 10) 3 = 1 / 12210.
Proof. unfold erlang_wp, erlang_x, erlang_y. simpl. field. Qed.

(** Traffic 1, 3 agents, the script's other inputs: the first evaluation
    already reaches 80%. *)
Lemma sla_1_3 : 8 / 10 <= sla_at 1 20 180 3.
Proof.
  unfold sla_at. apply Rle_trans with (1 - erlang_wp 1 3).
  - rewrite erlang_wp_1_3. lra.
  - apply exact_sla_ge; try lra. rewrite erlang_wp_1_3. lra.
Qed.

Lemma evaluate_1_3 :
  evaluate 1 20 (8 / 10) 180 (3 / 10) 3 no_series
  = Ok (sla_at 1 20 180 3, extend 1 20 180 (3 / 10) 3 no_series).
Proof. apply (evaluate_whole 1 20 (8 / 10) 180 (3 / 10) 3); lra. Qed.

(** Traffic 0.1, 2 agents, target 99.8%: the first service level is about
    99.7977%, below the target, and is recorded as 99.8. *)
Lemma sla_tenth_2 :
  99795 / 100000 < sla_at (1 / 10) 20 180 2 < 998 / 1000.
Proof.
  unfold sla_at, exact_sla. rewrite erlang_wp_tenth_2.
  replace (- ((2 - 1 / 10) * (20 / 180))) with (- (19 / 90)) by lra.
  pose proof exp_19_90. lra.
Qed.


Lemma sla_tenth_3 : 998 / 1000 <= sla_at (1 / 10) 20 180 3.
Proof.
  unfold sla_at. apply Rle_trans with (1 - erlang_wp (1 / 10) 3).
  - rewrite erlang_wp_tenth_3. lra.
  - apply exact_sla_ge; try lra. rewrite erlang_wp_tenth_3. lra.
Qed.

Lemma forward_tenth_2 :
  forward (1 / 10) 20 (998 / 1000) 180 (3 / 10) 1 2
  = Some (Ok (extend (1 / 10) 20 180 (3 / 10) 3
                (extend (1 / 10) 20 180 (3 / 10) 2 no_series))).
Proof.
  rewrite (forward_whole (1 / 10) 20 (998 / 1000) 180 (3 / 10)) by lra.
  cbn [optimize].
  destruct (Rlt_dec (sla_at (1 / 10) 20 180 2) (998 / 1000)) as [_ | G];
    [| pose proof sla_tenth_2; lra].
  rewrite (evaluate_next (1 / 10) 20 (998 / 1000) 180 (3 / 10)) by lra.
  destruct (Rlt_dec (sla_at (1 / 10) 20 180 (2 + 1)) (998 / 1000)) as [L | _];
    [| reflexivity].
  pose proof sla_tenth_3. simpl in L. lra.
Qed.

End ConcreteRuns.

(** ** C9: the seven lists *)

(** C9: when the search returns, its seven lists have one common length
    [L >= 1], and the agent counts are
    [n0, n0 + 1, ..., n0 + L - 1] for the starting count [n0]. *)
Theorem forward_lists_aligned (A T target AHT shr : R) (fuel : nat) (n0 : R)
    (r : series) :
  forward A T target AHT shr fuel n0 = Some (Ok r) ->
  exists L : nat,
    (1 <= L)%nat /\ lengths r L /\ agent_list r = consecutive n0 L.
Proof.
  intro H.
  destruct (forward_rule A T target AHT shr (shape_inv n0) n0
              (shape_init A T target AHT shr n0)
              (fun n sla s sla' s' =>
                 shape_step A T target AHT shr n0 n sla sla' s s') fuel r H)
    as (n & sla & (k & HL & Ha & _) & _).
  exists (S k). split; [lia | now split].
Qed.

(** The run from 2 agents at traffic 0.1 towards 99.8%: two entries, for 2
    and 3 agents. *)
Lemma forward_lists_aligned_witness :
  exists L : nat,
    (1 <= L)%nat
    /\ lengths (extend (1 / 10) 20 180 (3 / 10) 3
                  (extend (1 / 10) 20 180 (3 / 10) 2 no_series)) L
    /\ agent_list (extend (1 / 10) 20 180 (3 / 10) 3
                     (extend (1 / 10) 20 180 (3 / 10) 2 no_series))
       = consecutive 2 L.
Proof.
  exact (forward_lists_aligned (1 / 10) 20 (998 / 1000) 180 (3 / 10) 1 2 _
           forward_tenth_2).
Defined.

(** ** C10: the starting count is always evaluated and recorded *)

(** C10: the first evaluation comes before the loop test.  When the starting
    agent count evaluates to a service level that meets the target, the
    search returns, whatever the fuel, exactly that one evaluation: seven
    lists of length 1, the agent list holding the starting count. *)
Theorem forward_first_entry (A T target AHT shr : R) (fuel : nat) (n0 sla : R)
    (s : series) :
  evaluate A T target AHT shr n0 no_series = Ok (sla, s) ->
  target <= sla ->
  forward A T target AHT shr fuel n0 = Some (Ok s)
  /\ lengths s 1 /\ agent_list s = [n0] /\ sla_list s = [recorded sla].
Proof.
  intros E H. split; [now apply forward_accepts_first with (sla := sla) |].
  apply evaluate_inv in E as (wp & asa & occ & k & _ & _ & ->).
  split; [| split; reflexivity].
  apply lengths_snoc. unfold lengths. simpl. intuition.
Qed.

(** Traffic 1 and 3 agents with the script's target of 80%. *)
Lemma forward_first_entry_witness :
  forward 1 20 (8 / 10) 180 (3 / 10) 5 3
  = Some (Ok (extend 1 20 180 (3 / 10) 3 no_series))
  /\ lengths (extend 1 20 180 (3 / 10) 3 no_series) 1
  /\ agent_list (extend 1 20 180 (3 / 10) 3 no_series) = [3]
  /\ sla_list (extend 1 20 180 (3 / 10) 3 no_series)
     = [recorded (sla_at 1 20 180 3)].
Proof.
  exact (forward_first_entry 1 20 (8 / 10) 180 (3 / 10) 5 3 _ _
           evaluate_1_3 sla_1_3).
Defined.

(** ** C2: first crossing *)




(** ** C4: termination *)




(** * Further properties of the code *)

(** ** [waiting_probability] and [service_level_agreement] *)

(** At any whole agent count [N >= 0] other than the traffic, the method
    returns the formula's value as long as the last divisor is not zero;
    stability is not needed. *)
Lemma waiting_probability_whole_any (q : ErlangQueue.t) (A : R) (N : Z) :
  ErlangQueue.num_agents q = IZR N -> (0 <= N)%Z -> IZR N <> A ->
  erlang_x A N + erlang_y A N <> 0 ->
  ErlangQueue.waiting_probability q A = Ok (erlang_wp A N).
Proof.
  intros Hn HN HA Hd.
  rewrite (waiting_probability_eval q A (A ^ Z.to_nat N)).
  - rewrite Hn, round_IZR.
    destruct (Req_EM_T (IZR N - A) 0) as [E | _]; [lra |].
    cbv zeta. fold (erlang_x A N).
    rewrite div_ok by lra. unfold erlang_wp.
    now rewrite (Rplus_comm (erlang_y A N)).
  - rewrite Hn. now apply pow_Z.
  - now rewrite Hn, round_IZR.
Qed.












Lemma sla_at_monotone (A T AHT : R) (n m : Z) :
  0 <= A -> A < IZR n -> (n <= m)%Z -> 0 <= T -> 0 < AHT ->
  sla_at A T AHT n <= sla_at A T AHT m.
Proof.
  intros H0 H1 Hle HT HA. apply IZR_le in Hle as Hle'.
  assert (Hm : A < IZR m) by lra.
  assert (Hr : 0 <= T / AHT).
  { apply Rmult_le_pos; [exact HT | left; now apply Rinv_0_lt_compat]. }
  unfold sla_at, exact_sla.
  assert (Hw : erlang_wp A m <= erlang_wp A n).
  { replace m with (n + Z.of_nat (Z.to_nat (m - n)))%Z by lia.
    now apply erlang_wp_antitone. }
  pose proof (erlang_wp_bounds A m H0 Hm) as [Hw0 _].
  assert (He : exp (- ((IZR m - A) * (T / AHT)))
               <= exp (- ((IZR n - A) * (T / AHT)))).
  { destruct (Req_dec (- ((IZR m - A) * (T / AHT)))
                (- ((IZR n - A) * (T / AHT)))) as [-> | Hne]; [lra |].
    left. apply exp_increasing. nra. }
  pose proof (exp_pos (- ((IZR m - A) * (T / AHT)))).
  nra.
Qed.



(** ** Exceptions of [forward] *)











(** ** The table [forward] returns *)

Section Table.

Variables A T target AHT shr : R.
Variable N0 : Z.
Hypothesis A_nonneg : 0 <= A.
Hypothesis stable : A < IZR N0.
Hypothesis AHT_nonzero : AHT <> 0.
Hypothesis shr_not_1 : shr <> 1.

Lemma extend_trial_series (L : nat) :
  extend A T AHT shr (N0 + Z.of_nat L) (trial_series A T AHT shr N0 L)
  = trial_series A T AHT shr N0 (S L).
Proof.
  unfold extend, trial_series.
  cbn [wp_list sla_list agent_list average_answer_speed
       percent_calls_answered_immediately maximum_occupancy num_shrinkage].
  rewrite seq_S, !map_app. reflexivity.
Qed.

Lemma trial_series_1 :
  extend A T AHT shr N0 no_series = trial_series A T AHT shr N0 1.
Proof.
  rewrite <- (extend_trial_series 0). now rewrite Z.add_0_r.
Qed.

(** The invariant of the loop from a whole stable start: after [L] passes the
    lists are the table for [L + 1] counts and no earlier count met the
    target. *)
Lemma table_step (n sla sla' : R) (s s' : series) :
  (exists L : nat,
      n = IZR (N0 + Z.of_nat L) /\ sla = sla_at A T AHT (N0 + Z.of_nat L)
      /\ s = trial_series A T AHT shr N0 (S L)
      /\ forall i : nat, (i < L)%nat ->
           sla_at A T AHT (N0 + Z.of_nat i) < target) ->
  sla < target ->
  evaluate A T target AHT shr (n + 1) s = Ok (sla', s') ->
  exists L : nat,
    n + 1 = IZR (N0 + Z.of_nat L) /\ sla' = sla_at A T AHT (N0 + Z.of_nat L)
    /\ s' = trial_series A T AHT shr N0 (S L)
    /\ forall i : nat, (i < L)%nat ->
         sla_at A T AHT (N0 + Z.of_nat i) < target.
Proof.
  intros (L & -> & -> & -> & Hlt) Lt E.
  assert (HL : A < IZR (N0 + Z.of_nat L)).
  { rewrite plus_IZR, <- INR_IZR_INZ. pose proof (pos_INR L). lra. }
  rewrite evaluate_next in E by assumption.
  injection E as <- <-. exists (S L).
  replace (N0 + Z.of_nat (S L))%Z with (N0 + Z.of_nat L + 1)%Z by lia.
  split; [now rewrite (plus_IZR _ 1) |]. split; [reflexivity |]. split.
  - replace (N0 + Z.of_nat L + 1)%Z with (N0 + Z.of_nat (S L))%Z by lia.
    apply extend_trial_series.
  - intros i Hi. destruct (Nat.eq_dec i L) as [-> | Hne]; [exact Lt |].
    apply Hlt. lia.
Qed.

Lemma forward_table (fuel : nat) (r : series) :
  forward A T target AHT shr fuel (IZR N0) = Some (Ok r) ->
  exists L : nat,
    r = trial_series A T AHT shr N0 (S L)
    /\ target <= sla_at A T AHT (N0 + Z.of_nat L)
    /\ forall i : nat, (i < L)%nat ->
         sla_at A T AHT (N0 + Z.of_nat i) < target.
Proof.
  intro H.
  destruct (forward_rule A T target AHT shr
              (fun n sla s =>
                 exists L : nat,
                   n = IZR (N0 + Z.of_nat L)
                   /\ sla = sla_at A T AHT (N0 + Z.of_nat L)
                   /\ s = trial_series A T AHT shr N0 (S L)
                   /\ forall i : nat, (i < L)%nat ->
                        sla_at A T AHT (N0 + Z.of_nat i) < target)
              (IZR N0)) with (fuel := fuel) (r := r)
    as (n & sla & (L & _ & -> & -> & Hlt) & Hge).
  - intros sla s E. rewrite evaluate_whole in E by assumption.
    injection E as <- <-. exists 0%nat. rewrite Z.add_0_r.
    split; [reflexivity |]. split; [reflexivity |].
    split; [apply trial_series_1 |]. intros i Hi. lia.
  - intros n sla s sla' s'. apply table_step.
  - exact H.
  - exists L. now split.
Qed.

Lemma nth_at_count (f : Z -> R) (L i : nat) :
  (i < L)%nat ->
  nth i (map (fun k => f (N0 + Z.of_nat k)%Z) (seq 0 L)) 0
  = f (N0 + Z.of_nat i)%Z.
Proof.
  intro H.
  rewrite (nth_indep _ 0 (f (N0 + Z.of_nat 0)%Z))
    by now rewrite length_map, length_seq.
  rewrite (map_nth (fun k => f (N0 + Z.of_nat k)%Z) (seq 0 L) 0%nat i).
  now rewrite seq_nth.
Qed.

Lemma stable_later (i : nat) : A < IZR (N0 + Z.of_nat i).
Proof. rewrite plus_IZR, <- INR_IZR_INZ. pose proof (pos_INR i). lra. Qed.

End Table.



(** X12: along a run from a whole stable start the returned waiting
    probabilities fall (weakly) and, for [T >= 0] and [AHT > 0], the
    recorded service levels rise (weakly). *)
Theorem forward_lists_ordered (A T target AHT shr : R) (N0 : Z) (fuel : nat)
    (r : series) :
  0 <= A -> A < IZR N0 -> 0 <= T -> 0 < AHT -> shr <> 1 ->
  forward A T target AHT shr fuel (IZR N0) = Some (Ok r) ->
  falling (wp_list r) /\ rising (sla_list r).
Proof.
  intros H0 H1 HT HA Hs H.
  destruct (forward_table A T target AHT shr N0 H0 H1) with (fuel := fuel) (r := r)
    as (L & -> & _); try assumption; try lra.
  unfold falling, rising, trial_series. cbn [wp_list sla_list].
  rewrite !length_map, !length_seq. split; intros i j [Hij Hj].
  - rewrite !nth_at_count by lia.
    replace (N0 + Z.of_nat j)%Z
      with (N0 + Z.of_nat i + Z.of_nat (j - i))%Z by lia.
    apply erlang_wp_antitone; [exact H0 | now apply stable_later].
  - rewrite (nth_at_count N0 (fun N => recorded (sla_at A T AHT N))) by lia.
    rewrite (nth_at_count N0 (fun N => recorded (sla_at A T AHT N))) by lia.
    apply round_to_le. apply Rmult_le_compat_r; [lra |].
    apply sla_at_monotone; try assumption; [now apply stable_later | lia].
Qed.

Lemma forward_lists_ordered_witness :
  falling (wp_list (extend (1 / 10) 20 180 (3 / 10) 3
                      (extend (1 / 10) 20 180 (3 / 10) 2 no_series)))
  /\ rising (sla_list (extend (1 / 10) 20 180 (3 / 10) 3
                         (extend (1 / 10) 20 180 (3 / 10) 2 no_series))).
Proof.
  apply (forward_lists_ordered (1 / 10) 20 (998 / 1000) 180 (3 / 10) 2 1);
    try lra.
  exact forward_tenth_2.
Defined.

(** ** Ranges of the returned entries *)







(** ** How far the search goes *)




(** ** Zero traffic *)




(** ** The blend and the intensity *)





(** ** The run of the script *)

(** Turns the factorials and sums of a concrete Erlang value into numerals. *)
Ltac erlang_numbers :=
  unfold erlang_wp, erlang_x, erlang_y;
  repeat match goal with
  | |- context [Z.to_nat ?z] =>
      let v := eval vm_compute in (Z.to_nat z) in change (Z.to_nat z) with v
  end;
  cbn [sum_below];
  repeat match goal with
  | |- context [INR (fact ?k)] =>
      let v := eval vm_compute in (Z.of_nat (fact k)) in
      replace (INR (fact k)) with (IZR v) by (now rewrite INR_IZR_INZ)
  end.

(** Computes the whole counts [N0 + i] of a concrete table. *)
Ltac whole_counts :=
  repeat match goal with
  | |- context [(?n + Z.of_nat ?i)%Z] =>
      let v := eval vm_compute in (n + Z.of_nat i)%Z in
      change (n + Z.of_nat i)%Z with v
  end.

Section AnyWholeCount.

Variables A T target AHT shr : R.
Hypothesis AHT_nonzero : AHT <> 0.
Hypothesis shr_not_1 : shr <> 1.

(** One evaluation at a whole count [N >= 1], stable or not. *)
Lemma evaluate_whole_any (N : Z) (s : series) :
  (0 < N)%Z -> IZR N <> A -> erlang_x A N + erlang_y A N <> 0 ->
  evaluate A T target AHT shr (IZR N) s
  = Ok (sla_at A T AHT N, extend A T AHT shr N s).
Proof.
  intros HN HA Hd. apply IZR_lt in HN as HN'. unfold evaluate.
  rewrite (waiting_probability_whole_any _ A N)
    by (reflexivity || assumption || lia).
  rewrite bind_ok, service_level_agreement_ok by exact AHT_nonzero.
  rewrite bind_ok, !div_ok by lra. reflexivity.
Qed.

Lemma optimize_pass (fuel : nat) (N M : Z) (s : series) :
  (M = N + 1)%Z -> (0 < M)%Z -> IZR M <> A ->
  erlang_x A M + erlang_y A M <> 0 ->
  sla_at A T AHT N < target ->
  optimize A T target AHT shr (S fuel) (sla_at A T AHT N) (IZR N) s
  = optimize A T target AHT shr fuel (sla_at A T AHT M) (IZR M)
      (extend A T AHT shr M s).
Proof.
  intros -> HM HA Hd Lt. cbn [optimize].
  destruct (Rlt_dec (sla_at A T AHT N) target) as [_ | G]; [| contradiction].
  rewrite <- (plus_IZR N 1). now rewrite evaluate_whole_any.
Qed.

Lemma optimize_accepts (fuel : nat) (N : Z) (s : series) :
  target <= sla_at A T AHT N ->
  optimize A T target AHT shr fuel (sla_at A T AHT N) (IZR N) s = Some (Ok s).
Proof.
  intro H. destruct fuel; cbn [optimize];
    destruct (Rlt_dec (sla_at A T AHT N) target); (lra || reflexivity).
Qed.

End AnyWholeCount.

Lemma exact_sla_le (A T AHT wp n : R) :
  0 <= wp -> exact_sla A T AHT wp n <= 1 - wp * (1 - (n - A) * (T / AHT)).
Proof.
  intro H. unfold exact_sla.
  pose proof (exp_ineq1_le (- ((n - A) * (T / AHT)))). nra.
Qed.

Lemma script_below_target (N : Z) :
  (3 <= N <= 8)%Z -> sla_at (645 / 112) 20 180 N < 80 / 100.
Proof.
  intro H.
  assert (C : (N = 3 \/ N = 4 \/ N = 5 \/ N = 6 \/ N = 7 \/ N = 8)%Z) by lia.
  unfold sla_at.
  destruct C as [-> | [-> | [-> | [-> | [-> | ->]]]]];
    (eapply Rle_lt_trans; [apply exact_sla_le |]; erlang_numbers; lra).
Qed.

Lemma script_meets_target : 80 / 100 <= sla_at (645 / 112) 20 180 9.
Proof.
  unfold sla_at. apply Rle_trans with (1 - erlang_wp (645 / 112) 9).
  - erlang_numbers. lra.
  - apply exact_sla_ge; try lra. erlang_numbers. lra.
Qed.

Lemma script_divisor (N : Z) :
  (3 <= N <= 9)%Z -> erlang_x (645 / 112) N + erlang_y (645 / 112) N <> 0.
Proof.
  intro H.
  assert (C : (N = 3 \/ N = 4 \/ N = 5 \/ 6 <= N)%Z) by lia.
  destruct C as [-> | [-> | [-> | G]]].
  - apply Rlt_not_eq. erlang_numbers. lra.
  - apply Rlt_not_eq. erlang_numbers. lra.
  - apply Rlt_not_eq. erlang_numbers. lra.
  - apply IZR_le in G.
    pose proof (erlang_x_nonneg (645 / 112) N). 
    pose proof (erlang_y_ge_1 (645 / 112) N). lra.
Qed.

Lemma script_search :
  forward (645 / 112) 20 (80 / 100) 180 (30 / 100) 6 3
  = Some (Ok (trial_series (645 / 112) 20 180 (30 / 100) 3 7)).
Proof.
  unfold forward.
  rewrite (evaluate_whole_any (645 / 112) 20 (80 / 100) 180 (30 / 100))
    by (lra || lia || (apply script_divisor; lia)).
  assert (Ha : 180 <> 0) by lra. assert (Hs : 30 / 100 <> 1) by lra.
  pose proof (optimize_pass (645 / 112) 20 (80 / 100) 180 (30 / 100) Ha Hs)
    as pass.
  rewrite (pass _ 3%Z 4%Z), (pass _ 4%Z 5%Z), (pass _ 5%Z 6%Z),
          (pass _ 6%Z 7%Z), (pass _ 7%Z 8%Z), (pass _ 8%Z 9%Z)
    by (lra || lia || (apply script_divisor; lia)
        || (apply script_below_target; lia)).
  rewrite optimize_accepts by exact script_meets_target.
  reflexivity.
Qed.

(** X18: what the script computes.  Its blended traffic is 645/112 (about
    5.76) and its starting count 3, so the search starts at an unstable
    pair; it makes six passes and returns seven entries, for 3 to 9 agents.
    The first three waiting probabilities exceed 1 and the fourth to
    seventh lie in (0, 1); 9 agents is the first count whose service level
    reaches the 80% target. *)
Theorem script_run (fuel : nat) :
  (6 <= fuel)%nat ->
  exists r,
    Script.main fuel = Some (Ok r)
    /\ r = trial_series (645 / 112) 20 180 (30 / 100) 3 7
    /\ agent_list r = [3; 4; 5; 6; 7; 8; 9]
    /\ Forall (fun w => 1 < w) (firstn 3 (wp_list r))
    /\ Forall (fun w => 0 < w < 1) (skipn 3 (wp_list r))
    /\ 80 / 100 <= sla_at (645 / 112) 20 180 9
    /\ forall N : Z, (3 <= N <= 8)%Z -> sla_at (645 / 112) 20 180 N < 80 / 100.
Proof.
  intro Hf. exists (trial_series (645 / 112) 20 180 (30 / 100) 3 7).
  split; [| split; [reflexivity |]].
  - destruct (script_call fuel) as [-> _].
    unfold Script.target_answer_time, Script.target_sla,
      Script.average_handling_time, Script.shrinkage, forward.
    pose proof script_search as S. unfold forward in S.
    destruct (evaluate (645 / 112) 20 (80 / 100) 180 (30 / 100) 3 no_series)
      as [[sla s] |]; [| discriminate S].
    replace fuel with (6 + (fuel - 6))%nat by lia.
    now apply optimize_more_fuel.
  - split; [reflexivity |].
    split; [| split; [| split; [exact script_meets_target
                               | exact script_below_target]]].
    + cbn [trial_series wp_list seq map firstn]. whole_counts.
      repeat (apply Forall_cons; [erlang_numbers; lra |]). apply Forall_nil.
    + cbn [trial_series wp_list seq map skipn]. whole_counts.
      repeat (apply Forall_cons; [erlang_numbers; lra |]). apply Forall_nil.
Qed.

Lemma script_run_witness :
  exists r,
    Script.main 6 = Some (Ok r)
    /\ r = trial_series (645 / 112) 20 180 (30 / 100) 3 7
    /\ agent_list r = [3; 4; 5; 6; 7; 8; 9]
    /\ Forall (fun w => 1 < w) (firstn 3 (wp_list r))
    /\ Forall (fun w => 0 < w < 1) (skipn 3 (wp_list r))
    /\ 80 / 100 <= sla_at (645 / 112) 20 180 9
    /\ forall N : Z, (3 <= N <= 8)%Z -> sla_at (645 / 112) 20 180 N < 80 / 100.
Proof.
  apply (script_run 6). lia.
Defined.

(** ** Two more facts on the search and on fractional agent counts *)




